(** * Ring signatures over an elliptic curve: crypto/ring/ring.go

    A shallow embedding of [GenNewKeyRing], [Sign] and [Verify] and the
    properties of the scheme that can be read off the code.

    Modelling conventions.
    - Go [int] values are [Z]; every index the code computes is bounded by
      the length of a slice, so no machine wrap-around can occur.
    - [*big.Int] is [option Z] where the code stores pointers in slices or
      struct fields ([None] is the nil pointer); [[]byte] is [list byte].
    - [*ecdsa.PublicKey] is a pointer: the code compares such pointers with
      [!=], so addresses matter.  Key objects live in a heap; a key object
      itself is fully populated (curve and coordinates present).
    - The random source is a tape consumed call by call; the bounds handed
      to [rand.Int] are recorded in the order of the calls.
    - A run-time panic (index out of range, nil dereference, division by
      zero) is the outcome [Panic]; a returned Go [error] is [Err]. *)

From Stdlib Require Import ZArith Lia List Bool.
From Stdlib Require Import Strings.Byte.
From stdpp Require Import base list.

Local Open Scope Z_scope.

(** ** math/big and bytes *)

Module bytes.

(** [bytes.Equal]. *)
Fixpoint Equal (a b : list byte) : bool :=
  match a, b with
  | [], [] => true
  | x :: a', y :: b' => Byte.eqb x y && Equal a' b'
  | _, _ => false
  end.

End bytes.

Module big.

Definition byte_of_N (n : N) : byte :=
  match Byte.of_N n with Some b => b | None => x00 end.

(** Base-256 digits of [n], least significant first, no trailing zero. *)
Fixpoint le_digits (fuel : nat) (n : N) : list byte :=
  match fuel with
  | O => []
  | S fuel' =>
      if (n =? 0)%N then []
      else byte_of_N (n mod 256) :: le_digits fuel' (n / 256)
  end.

(** [Int.Bytes]: the big-endian bytes of the absolute value. *)
Definition Bytes (z : Z) : list byte :=
  rev (le_digits (N.to_nat (N.size (Z.abs_N z))) (Z.abs_N z)).

(** [Int.SetBytes]: the big-endian unsigned integer held by [b]. *)
Definition SetBytes (b : list byte) : Z :=
  fold_left (fun acc x => acc * 256 + Z.of_N (Byte.to_N x)) b 0.

(** [Int.Mod]: Euclidean modulus; a zero modulus is a run-time panic. *)
Definition Mod (x y : Z) : option Z :=
  if y =? 0 then None else Some (x mod Z.abs y).

End big.

(** ** crypto/elliptic and crypto/ecdsa *)

Module elliptic.

Record CurveParams := {
  P : Z;        (* the order of the underlying field *)
  N : Z;        (* the order of the base point *)
  B : Z;
  Gx : Z;
  Gy : Z;
  BitSize : Z
}.

(** The [elliptic.Curve] interface. *)
Record Curve := {
  Params : CurveParams;
  Add : Z -> Z -> Z -> Z -> Z * Z;
  ScalarMult : Z -> Z -> list byte -> Z * Z;
  ScalarBaseMult : list byte -> Z * Z
}.

End elliptic.

Module ecdsa.

Record PublicKey := {
  Curve : elliptic.Curve;
  X : Z;
  Y : Z
}.

(** [PrivateKey] embeds a [PublicKey]. *)
Record PrivateKey := {
  EmbeddedPublicKey : PublicKey;
  D : Z
}.

End ecdsa.

(** ** The heap of key objects *)

(** Addresses of heap objects. *)
Abbreviation loc := nat (only parsing).

(** A value of type [*ecdsa.PublicKey]: nil, the address of a public key
    object of its own, or the address of the public key embedded in the
    private key object at [l] (what [priv.Public()] returns). *)
Inductive PublicKeyPtr :=
  | NilPub
  | PubAt (l : loc)
  | PubOfPriv (l : loc).

#[global] Instance PublicKeyPtr_eq_dec : EqDecision PublicKeyPtr.
Proof. solve_decision. Defined.

Definition Ring := list PublicKeyPtr.

Record World := {
  pubs : list ecdsa.PublicKey;            (* public key objects *)
  privs : list ecdsa.PrivateKey;          (* private key objects *)
  ints : list (option Z);                 (* what rand.Reader yields to rand.Int *)
  keys : list (option ecdsa.PrivateKey);  (* what crypto.GenerateKey yields *)
  asked : list Z                          (* bounds passed to rand.Int so far *)
}.

Definition deref (w : World) (p : PublicKeyPtr) : option ecdsa.PublicKey :=
  match p with
  | NilPub => None
  | PubAt l => pubs w !! l
  | PubOfPriv l => ecdsa.EmbeddedPublicKey <$> privs w !! l
  end.

(** ** Outcomes and the execution monad *)

Inductive error :=
  | ErrRingSize     (* "size of ring less than two" *)
  | ErrIndexRange   (* "secret index out of range of ring size" *)
  | ErrNotSigner    (* "secret index in ring is not signer" *)
  | ErrRand         (* the error of the random source *)
  | ErrClosing.     (* "error closing ring" *)

Inductive result (A : Type) :=
  | Ok (a : A)
  | Err (e : error)
  | Panic.
Arguments Ok {A} a.
Arguments Err {A} e.
Arguments Panic {A}.

Definition exec (A : Type) : Type := World -> result A * World.

Definition ret {A} (a : A) : exec A := fun w => (Ok a, w).
Definition fail {A} (e : error) : exec A := fun w => (Err e, w).
Definition panic {A} : exec A := fun w => (Panic, w).

Definition bind {A B} (c : exec A) (k : A -> exec B) : exec B :=
  fun w =>
    match c w with
    | (Ok a, w') => k a w'
    | (Err e, w') => (Err e, w')
    | (Panic, w') => (Panic, w')
    end.

(** [v, err := f()]: the error is handed to the caller as a value. *)
Definition attempt {A} (c : exec A) : exec (A + error) :=
  fun w =>
    match c w with
    | (Ok a, w') => (Ok (inl a), w')
    | (Err e, w') => (Ok (inr e), w')
    | (Panic, w') => (Panic, w')
    end.

(** An operation that panics where the option is [None]. *)
Definition must {A} (o : option A) : exec A :=
  match o with Some a => ret a | None => panic end.

Declare Scope exec_scope.
Delimit Scope exec_scope with exec.
Notation "'let*' x ':=' c 'in' k" := (bind c (fun x => k))
  (at level 10, x pattern, c at level 100, k at level 200) : exec_scope.
Local Open Scope exec_scope.

(** ** Slices *)

Definition len {A} (l : list A) : Z := Z.of_nat (length l).

(** [l[i]] as a value; out of range is [None]. *)
Definition index {A} (l : list A) (i : Z) : option A :=
  if i <? 0 then None else l !! Z.to_nat i.

(** [l[i] = x]; out of range is [None]. *)
Definition store {A} (l : list A) (i : Z) (x : A) : option (list A) :=
  if (0 <=? i) && (i <? len l) then Some (<[Z.to_nat i := x]> l) else None.

(** [make([]T, n)] for a pointer type [T]; a negative length panics. *)
Definition make {A} (n : Z) : option (list (option A)) :=
  if n <? 0 then None else Some (replicate (Z.to_nat n) None).

(** [make([]*ecdsa.PublicKey, n)]. *)
Definition make_ring (n : Z) : option (list PublicKeyPtr) :=
  if n <? 0 then None else Some (replicate (Z.to_nat n) NilPub).

(** Reading through a [*big.Int] held in a slice. *)
Definition load_int (l : list (option Z)) (i : Z) : exec Z :=
  let* p := must (index l i) in must p.

(** Reading through a [*ecdsa.PublicKey]. *)
Definition load_ptr (p : PublicKeyPtr) : exec ecdsa.PublicKey :=
  fun w => must (deref w p) w.

(** Reading through a [*ecdsa.PublicKey] held in a ring. *)
Definition load_pub (ring : Ring) (i : Z) : exec ecdsa.PublicKey :=
  let* p := must (index ring i) in load_ptr p.

(** Reading through a [*ecdsa.PrivateKey]. *)
Definition load_priv (privkey : loc) : exec ecdsa.PrivateKey :=
  fun w => must (privs w !! privkey) w.

(** ** The random source *)

(** [rand.Int(rand.Reader, max)]: panics for [max <= 0]; otherwise the next
    entry of the tape decides: a read error, or a value of [[0, max)].  An
    exhausted tape is a read error. *)
Definition rand_Int (max : Z) : exec Z :=
  fun w =>
    if max <=? 0 then (Panic, w)
    else
      let log := asked w ++ [max] in
      match ints w with
      | [] =>
          (Err ErrRand,
           {| pubs := pubs w; privs := privs w; ints := [];
              keys := keys w; asked := log |})
      | None :: t =>
          (Err ErrRand,
           {| pubs := pubs w; privs := privs w; ints := t;
              keys := keys w; asked := log |})
      | Some r :: t =>
          (Ok (r mod max),
           {| pubs := pubs w; privs := privs w; ints := t;
              keys := keys w; asked := log |})
      end.

(** Modelled from the spec: crypto.GenerateKey is not part of ring.go.  It
    "generates a fresh random key pair on the same curve" and fails when
    "the underlying secure random source is exhausted or errors": the next
    entry of the key tape is either a failure or a key pair, which is
    allocated as a new private key object. *)
Definition GenerateKey : exec loc :=
  fun w =>
    match keys w with
    | [] => (Err ErrRand, w)
    | None :: t =>
        (Err ErrRand,
         {| pubs := pubs w; privs := privs w; ints := ints w;
            keys := t; asked := asked w |})
    | Some sk :: t =>
        (Ok (length (privs w)),
         {| pubs := pubs w; privs := privs w ++ [sk]; ints := ints w;
            keys := t; asked := asked w |})
    end.

(** [priv.Public()], asserted to be a public key pointer: the address of the embedded public
    key; a nil [priv] panics. *)
Definition Public (privkey : loc) : exec PublicKeyPtr :=
  let* _ := load_priv privkey in ret (PubOfPriv privkey).

(** ** ring.go *)

Module RingSign.

Record t := {
  Size : Z;                        (* size of ring *)
  M : list byte;                   (* message *)
  C : option Z;                    (* ring signature value *)
  S : list (option Z);             (* ring signature values *)
  Ring : list PublicKeyPtr;        (* array of public keys *)
  Curve : option elliptic.Curve
}.

End RingSign.

(** The body of the loop of [GenNewKeyRing], [k] iterations from counter
    [i] on ([k] is [size - i]).  A failed key generation returns nil. *)
Fixpoint GenNewKeyRing_loop (k : nat) (i size s : Z) (ring : Ring)
  : exec (option Ring) :=
  match k with
  | O => ret (Some ring)
  | S k' =>
      let idx := Z.rem (i + s) size in
      let* r := attempt GenerateKey in
      match r with
      | inr _ => ret None
      | inl priv =>
          let* pub := Public priv in
          let* ring := must (store ring idx pub) in
          GenNewKeyRing_loop k' (i + 1) size s ring
      end
  end.

Definition GenNewKeyRing (size : Z) (privkey : loc) (s : Z)
  : exec (option Ring) :=
  let* ring := must (make_ring size) in
  let* pubkey := Public privkey in
  let* ring := must (store ring s pubkey) in
  GenNewKeyRing_loop (Z.to_nat (size - 1)) 1 size s ring.

Section Ring.

(** [sha3.Sum256], an external collaborator. *)
Variable Sum256 : list byte -> list byte.

(** The loop of [Sign], [k] iterations from counter [i] on. *)
Fixpoint Sign_loop (curve : elliptic.Curve) (m : list byte) (ring : Ring)
    (s ringsize : Z) (k : nat) (i : Z) (C Ss : list (option Z))
  : exec (list (option Z) * list (option Z)) :=
  match k with
  | O => ret (C, Ss)
  | S k' =>
      let idx := Z.rem (s + i) ringsize in
      let* s_i := rand_Int (elliptic.P (elliptic.Params curve)) in
      let* Ss := must (store Ss idx (Some s_i)) in
      let* pk := load_pub ring idx in
      let* c := load_int C idx in
      let '(px, py) :=
        elliptic.ScalarMult curve (ecdsa.X pk) (ecdsa.Y pk) (big.Bytes c) in
      let '(sx, sy) := elliptic.ScalarBaseMult curve (big.Bytes s_i) in
      let '(tx, ty) := elliptic.Add curve sx sy px py in
      let C_i := Sum256 (m ++ (big.Bytes tx ++ big.Bytes ty)) in
      let* C :=
        (if i =? ringsize - 1
         then must (store C s (Some (big.SetBytes C_i)))
         else must (store C (Z.rem (idx + 1) ringsize)
                      (Some (big.SetBytes C_i)))) in
      Sign_loop curve m ring s ringsize k' (i + 1) C Ss
  end.

Definition Sign (m : list byte) (ring : Ring) (privkey : loc) (s : Z)
  : exec RingSign.t :=
  let ringsize := len ring in
  if ringsize <? 2 then fail ErrRingSize
  else if (s >=? ringsize) || (s <? 0) then fail ErrIndexRange
  else
    (* setup *)
    let* pubkey := Public privkey in
    let* pubkey_obj := load_ptr pubkey in
    let curve := ecdsa.Curve pubkey_obj in
    (* check that key at index s is indeed the signer *)
    let* ring_s := must (index ring s) in
    if negb (bool_decide (ring_s = pubkey)) then fail ErrNotSigner
    else
      let* C := must (make ringsize) in
      let* Ss := must (make ringsize) in
      (* pick random scalar u *)
      let* u := rand_Int (elliptic.P (elliptic.Params curve)) in
      let '(ux, uy) := elliptic.ScalarBaseMult curve (big.Bytes u) in
      let C_i := Sum256 (m ++ (big.Bytes ux ++ big.Bytes uy)) in
      let idx := Z.rem (s + 1) ringsize in
      let* C := must (store C idx (Some (big.SetBytes C_i))) in
      let* (C, Ss) :=
        Sign_loop curve m ring s ringsize (Z.to_nat (ringsize - 1)) 1 C Ss in
      (* close ring *)
      let* c_s := load_int C s in
      let* sk := load_priv privkey in
      let* r := must (big.Mod (c_s * ecdsa.D sk)
                        (elliptic.N (elliptic.Params curve))) in
      let* Ss := must (store Ss s (Some (u - r))) in
      (* check that u*G = s[0]*G + c[0]*P[0] *)
      let* pk := load_pub ring s in
      let* c_s := load_int C s in
      let '(px, py) :=
        elliptic.ScalarMult curve (ecdsa.X pk) (ecdsa.Y pk) (big.Bytes c_s) in
      let* s_s := load_int Ss s in
      let '(sx, sy) := elliptic.ScalarBaseMult curve (big.Bytes s_s) in
      let '(tx, ty) := elliptic.Add curve sx sy px py in
      let C_i := Sum256 (m ++ (big.Bytes tx ++ big.Bytes ty)) in
      let C_big := big.SetBytes C_i in
      if negb (bytes.Equal (big.Bytes tx) (big.Bytes ux)) then fail ErrClosing
      else if negb (bytes.Equal (big.Bytes ty) (big.Bytes uy))
      then fail ErrClosing
      else
        let* c_1 := load_int C (Z.rem (s + 1) ringsize) in
        if negb (bytes.Equal (big.Bytes c_1) (big.Bytes C_big))
        then fail ErrClosing
        else
          (* everything ok, add values to signature *)
          let* c_0 := must (index C 0) in
          ret {| RingSign.Size := ringsize;
                 RingSign.M := m;
                 RingSign.C := c_0;
                 RingSign.S := Ss;
                 RingSign.Ring := ring;
                 RingSign.Curve := Some curve |}.

(** The loop of [Verify], [k] iterations from counter [i] on. *)
Fixpoint Verify_loop (curve : elliptic.Curve) (sig : RingSign.t)
    (k : nat) (i : Z) (C : list (option Z)) : exec (list (option Z)) :=
  match k with
  | O => ret C
  | S k' =>
      let ring := RingSign.Ring sig in
      let ringsize := RingSign.Size sig in
      let* pk := load_pub ring i in
      let* c := load_int C i in
      let '(px, py) :=
        elliptic.ScalarMult curve (ecdsa.X pk) (ecdsa.Y pk) (big.Bytes c) in
      let* s_i := load_int (RingSign.S sig) i in
      let '(sx, sy) := elliptic.ScalarBaseMult curve (big.Bytes s_i) in
      let '(tx, ty) := elliptic.Add curve sx sy px py in
      let C_i :=
        Sum256 (RingSign.M sig ++ (big.Bytes tx ++ big.Bytes ty)) in
      let* C :=
        (if i =? ringsize - 1
         then must (store C 0 (Some (big.SetBytes C_i)))
         else must (store C (i + 1) (Some (big.SetBytes C_i)))) in
      Verify_loop curve sig k' (i + 1) C
  end.

Definition Verify (sig : RingSign.t) : exec bool :=
  (* setup *)
  let ring := RingSign.Ring sig in
  let ringsize := RingSign.Size sig in
  let* C := must (make ringsize) in
  let* C := must (store C 0 (RingSign.C sig)) in
  let* pk0 := load_pub ring 0 in
  let curve := ecdsa.Curve pk0 in
  let* C := Verify_loop curve sig (Z.to_nat ringsize) 0 C in
  let* c := must (RingSign.C sig) in
  let* c0 := load_int C 0 in
  ret (bytes.Equal (big.Bytes c) (big.Bytes c0)).

End Ring.

(** ** A small curve and a small hash to run the code on

    The curve y^2 = x^3 + 7 over the field of 43 elements; its group has
    prime order 31 and is generated by (2, 12).  The point at infinity is
    (0, 0), as in crypto/elliptic. *)

Module toy.

Definition p : Z := 43.
Definition n : Z := 31.

Definition inv (a : Z) : Z := (a ^ (p - 2)) mod p.

Definition add (x1 y1 x2 y2 : Z) : Z * Z :=
  if (x1 =? 0) && (y1 =? 0) then (x2, y2)
  else if (x2 =? 0) && (y2 =? 0) then (x1, y1)
  else if (x1 =? x2) && ((y1 + y2) mod p =? 0) then (0, 0)
  else
    let l := if x1 =? x2 then (3 * x1 * x1 * inv (2 * y1)) mod p
             else ((y2 - y1) * inv (x2 - x1)) mod p in
    let x3 := (l * l - x1 - x2) mod p in
    (x3, (l * (x1 - x3) - y1) mod p).

Definition mult (x y : Z) (k : list byte) : Z * Z :=
  match big.SetBytes k with
  | Zpos q => Pos.iter_op (fun a b => add (fst a) (snd a) (fst b) (snd b)) q (x, y)
  | _ => (0, 0)
  end.

Definition curve : elliptic.Curve :=
  {| elliptic.Params :=
       {| elliptic.P := p; elliptic.N := n; elliptic.B := 7;
          elliptic.Gx := 2; elliptic.Gy := 12; elliptic.BitSize := 6 |};
     elliptic.Add := add;
     elliptic.ScalarMult := mult;
     elliptic.ScalarBaseMult := mult 2 12 |}.

(** A 32-byte digest: a polynomial checksum, padded on the left. *)
Definition Sum256 (b : list byte) : list byte :=
  let h := fold_left (fun acc x => (acc * 257 + Z.of_N (Byte.to_N x) + 1)
                                   mod 2 ^ 256) b 0 in
  let d := big.Bytes h in
  replicate (32 - length d)%nat x00 ++ d.

(** The key pair with private scalar [d]. *)
Definition key (d : Z) : ecdsa.PrivateKey :=
  let '(x, y) := elliptic.ScalarBaseMult curve (big.Bytes d) in
  {| ecdsa.EmbeddedPublicKey := {| ecdsa.Curve := curve; ecdsa.X := x; ecdsa.Y := y |};
     ecdsa.D := d |}.

(** "hello" *)
Definition hello : list byte := [x68; x65; x6c; x6c; x6f].

End toy.

(** ** Concrete inputs *)

Module scenario.

(** Three private key objects, no public key object of its own. *)
Definition heap3 (tape : list (option Z)) : World :=
  {| pubs := []; privs := [toy.key 5; toy.key 7; toy.key 11];
     ints := tape; keys := []; asked := [] |}.

(** Ring of size 3 with the signer (private key object 0) at index 1. *)
Definition ring3 : Ring := [PubOfPriv 1%nat; PubOfPriv 0%nat; PubOfPriv 2%nat].

(** Ring of size 2 with the signer (private key object 0) at index 0. *)
Definition ring2 : Ring := [PubOfPriv 0%nat; PubOfPriv 1%nat].

(** The signer's key and an independently built public key object with
    the same curve and coordinates, at address 0 of the public objects. *)
Definition heap_copy (tape : list (option Z)) : World :=
  {| pubs := [ecdsa.EmbeddedPublicKey (toy.key 5)];
     privs := [toy.key 5; toy.key 7];
     ints := tape; keys := []; asked := [] |}.

Definition ring_copy : Ring := [PubAt 0%nat; PubOfPriv 1%nat].

(** A world for [GenNewKeyRing]: the signer's key object and a key tape. *)
Definition keyworld (tape : list (option ecdsa.PrivateKey)) : World :=
  {| pubs := []; privs := [toy.key 5]; ints := []; keys := tape; asked := [] |}.

(** The signature of the three-member scenario for the tape 20, 3, 4. *)
Definition sig3 : RingSign.t :=
  {| RingSign.Size := 3;
     RingSign.M := toy.hello;
     RingSign.C := Some 30369199955140147;
     RingSign.S := [Some 4; Some 9; Some 3];
     RingSign.Ring := ring3;
     RingSign.Curve := Some toy.curve |}.

(** The world after signing in the three-member scenario: the tape is
    used up and three bounds were asked for. *)
Definition after3 : World :=
  {| pubs := []; privs := [toy.key 5; toy.key 7; toy.key 11];
     ints := []; keys := []; asked := [43; 43; 43] |}.

(** The same signature without a curve descriptor. *)
Definition sig3_no_curve : RingSign.t :=
  {| RingSign.Size := 3;
     RingSign.M := toy.hello;
     RingSign.C := Some 30369199955140147;
     RingSign.S := [Some 4; Some 9; Some 3];
     RingSign.Ring := ring3;
     RingSign.Curve := None |}.

(** The same signature with the lowest bit of the initial challenge
    flipped. *)
Definition sig3_tampered : RingSign.t :=
  {| RingSign.Size := 3;
     RingSign.M := toy.hello;
     RingSign.C := Some (Z.lxor 30369199955140147 1);
     RingSign.S := [Some 4; Some 9; Some 3];
     RingSign.Ring := ring3;
     RingSign.Curve := Some toy.curve |}.


(** The world after signing with a two-member ring. *)
Definition after2 : World :=
  {| pubs := []; privs := [toy.key 5; toy.key 7; toy.key 11];
     ints := []; keys := []; asked := [43; 43] |}.

(** The signature over [ring2] for the tape 20, 40. *)
Definition sig2_decoy40 : RingSign.t :=
  {| RingSign.Size := 2;
     RingSign.M := toy.hello;
     RingSign.C := Some 30369199955137596;
     RingSign.S := [Some 7; Some 40];
     RingSign.Ring := ring2;
     RingSign.Curve := Some toy.curve |}.

(** The signature over [ring2] for the tape 39, 4. *)
Definition sig2_u39 : RingSign.t :=
  {| RingSign.Size := 2;
     RingSign.M := toy.hello;
     RingSign.C := Some 30369199955146839;
     RingSign.S := [Some 32; Some 4];
     RingSign.Ring := ring2;
     RingSign.Curve := Some toy.curve |}.

End scenario.

(** ** Specification-level notions *)

(** The two signatures agree on every field but the curve descriptor. *)
Definition agree_up_to_Curve (a b : RingSign.t) : Prop :=
  RingSign.Size a = RingSign.Size b /\
  RingSign.M a = RingSign.M b /\
  RingSign.C a = RingSign.C b /\
  RingSign.S a = RingSign.S b /\
  RingSign.Ring a = RingSign.Ring b.

(** The curve of the key that [ring[i]] points to. *)
Definition curve_at (w : World) (ring : Ring) (i : Z) : option elliptic.Curve :=
  match index ring i with
  | Some p => ecdsa.Curve <$> deref w p
  | None => None
  end.

(** The heap of key objects is the same in both worlds. *)
Definition same_heap (w w' : World) : Prop :=
  pubs w' = pubs w /\ privs w' = privs w.

(** The outcome is one of the three validation errors of [Sign]. *)
Definition validation_error {A} (r : result A) : Prop :=
  r = Err ErrRingSize \/ r = Err ErrIndexRange \/ r = Err ErrNotSigner.

(** The errors a computation can return all satisfy [P]. *)
Definition errors_in {A} (P : error -> Prop) (c : exec A) : Prop :=
  forall w e w', c w = (Err e, w') -> P e.

(** Every run of the computation relates the world before to the world
    after by [R]. *)
Definition runs_in {A} (R : World -> World -> Prop) (c : exec A) : Prop :=
  forall w r w', c w = (r, w') -> R w w'.

(** Only the bound [b] was handed to [rand.Int] between [w] and [w']. *)
Definition asked_only (b : Z) (w w' : World) : Prop :=
  exists k : nat, asked w' = asked w ++ replicate k b.

(** The first [k] key generations do not all succeed on this tape. *)
Fixpoint fails_within (k : nat) (tape : list (option ecdsa.PrivateKey)) : bool :=
  match k with
  | O => false
  | S k' =>
      match tape with
      | Some _ :: t => fails_within k' t
      | _ => true
      end
  end.

(** The public halves of the outcomes on a key tape. *)
Definition public_tape (tape : list (option ecdsa.PrivateKey))
  : list (option ecdsa.PublicKey) :=
  map (fmap ecdsa.EmbeddedPublicKey) tape.

(** One step of the challenge chain: H(m, s*G + c*P) for the scalars held
    in the byte strings [sb] and [cb] and the ring member [pk]. *)
Definition challenge (Sum256 : list byte -> list byte) (curve : elliptic.Curve)
    (m : list byte) (pk : ecdsa.PublicKey) (cb sb : list byte) : Z :=
  let '(px, py) := elliptic.ScalarMult curve (ecdsa.X pk) (ecdsa.Y pk) cb in
  let '(sx, sy) := elliptic.ScalarBaseMult curve sb in
  let '(tx, ty) := elliptic.Add curve sx sy px py in
  big.SetBytes (Sum256 (m ++ (big.Bytes tx ++ big.Bytes ty))).

(** Position [j] of the ring is linked to the next one: the challenge
    stored after [j] has the bytes of the challenge computed from the
    challenge, the response and the ring member at [j]. *)
Definition linked (Sum256 : list byte -> list byte) (w : World)
    (curve : elliptic.Curve) (m : list byte) (ring : Ring)
    (C Ss : list (option Z)) (n j : Z) : Prop :=
  exists p pk c sv c',
    index ring j = Some p /\ deref w p = Some pk /\
    index C j = Some (Some c) /\ index Ss j = Some (Some sv) /\
    index C ((j + 1) mod n) = Some (Some c') /\
    big.Bytes c' = big.Bytes (challenge Sum256 curve m pk (big.Bytes c) (big.Bytes sv)).


(** The value of base-256 digits given least significant first. *)
Fixpoint le_value (l : list byte) : N :=
  match l with
  | [] => 0%N
  | b :: l' => (Byte.to_N b + 256 * le_value l')%N
  end.

(** ** Basic facts: bytes, slices, the monad *)

Example Bytes_zero : big.Bytes 0 = [].
Proof. reflexivity. Qed.

Example Bytes_negative : big.Bytes (-65537) = [x01; x00; x01].
Proof. reflexivity. Qed.

Example SetBytes_Bytes : big.SetBytes (big.Bytes 123456789) = 123456789.
Proof. reflexivity. Qed.

Example toy_base_point_order :
  elliptic.ScalarBaseMult toy.curve (big.Bytes 31) = (0, 0) /\
  elliptic.ScalarBaseMult toy.curve (big.Bytes 30) = (2, 31).
Proof. split; reflexivity. Qed.

Lemma to_N_byte_of_N n : (n < 256)%N -> Byte.to_N (big.byte_of_N n) = n.
Proof.
  intros H. unfold big.byte_of_N.
  destruct (Byte.of_N n) as [b|] eqn:E.
  - apply Byte.to_of_N. exact E.
  - apply Byte.of_N_None_iff in E. lia.
Qed.

Lemma size_div256 (n : N) : n <> 0%N -> (N.size (n / 256) < N.size n)%N.
Proof.
  intros Hn. rewrite (N.size_log2 n Hn).
  destruct (N.eq_dec (n / 256)%N 0%N) as [E|E]; [rewrite E; simpl; lia|].
  rewrite (N.size_log2 _ E).
  assert (Hle : (n / 256 * 256 <= n)%N).
  { rewrite N.mul_comm. apply N.Div0.mul_div_le. }
  assert (Hlog : (N.log2 (n / 256) < N.log2 n)%N).
  { apply N.lt_le_trans with (N.log2 (n / 256 * 256)).
    - replace 256%N with (2 ^ 8)%N by reflexivity.
      rewrite N.log2_mul_pow2; [|apply N.neq_0_lt_0; exact E|apply N.le_0_l].
      apply N.lt_add_pos_l. reflexivity.
    - apply N.log2_le_mono. exact Hle. }
  lia.
Qed.

Lemma le_digits_value fuel : forall n,
  (N.to_nat (N.size n) <= fuel)%nat -> le_value (big.le_digits fuel n) = n.
Proof.
  induction fuel as [|fuel IH]; intros n Hf.
  - destruct n as [|p]; [reflexivity|].
    pose proof (N.size_log2 (N.pos p)). lia.
  - simpl. destruct (N.eqb_spec n 0) as [->|Hn]; [reflexivity|].
    simpl. rewrite to_N_byte_of_N by (apply N.mod_lt; lia).
    rewrite IH by (pose proof (size_div256 n Hn); lia).
    rewrite (N.div_mod n 256) at 3 by lia. lia.
Qed.

Lemma SetBytes_app a b :
  big.SetBytes (a ++ [b]) = big.SetBytes a * 256 + Z.of_N (Byte.to_N b).
Proof. unfold big.SetBytes. rewrite fold_left_app. reflexivity. Qed.

Lemma SetBytes_rev l : big.SetBytes (rev l) = Z.of_N (le_value l).
Proof.
  induction l as [|b l IH]; [reflexivity|].
  simpl rev. rewrite SetBytes_app, IH. simpl le_value. lia.
Qed.

(** Reading back the bytes of an integer gives its absolute value. *)
Lemma SetBytes_Bytes_abs z : big.SetBytes (big.Bytes z) = Z.abs z.
Proof.
  unfold big.Bytes. rewrite SetBytes_rev, le_digits_value.
  - apply N2Z.inj_abs_N.
  - lia.
Qed.

(** On non-negative integers equal bytes mean equal values. *)
Lemma Bytes_inj a b : 0 <= a -> 0 <= b -> big.Bytes a = big.Bytes b -> a = b.
Proof.
  intros Ha Hb H. apply (f_equal big.SetBytes) in H.
  rewrite !SetBytes_Bytes_abs in H. lia.
Qed.

Lemma Equal_refl (a : list byte) : bytes.Equal a a = true.
Proof.
  induction a as [|x a IH]; simpl; [reflexivity|].
  rewrite IH, andb_true_r. apply Byte.byte_dec_lb. reflexivity.
Qed.

Lemma Equal_eq (a b : list byte) : bytes.Equal a b = true -> a = b.
Proof.
  revert b. induction a as [|x a IH]; intros [|y b]; simpl; try discriminate.
  - reflexivity.
  - intros H. apply andb_true_iff in H as [Hx Hab].
    apply Byte.byte_dec_bl in Hx. f_equal; auto.
Qed.

Lemma store_Some {A} (l l' : list A) (i : Z) (x : A) :
  store l i x = Some l' ->
  0 <= i < len l /\ l' = <[Z.to_nat i := x]> l /\ len l' = len l.
Proof.
  unfold store.
  destruct (Z.leb_spec 0 i); simpl; [|discriminate].
  destruct (Z.ltb_spec i (len l)); [|discriminate].
  intros [= <-]. unfold len in *. rewrite length_insert.
  repeat split; lia.
Qed.

Lemma store_in_range {A} (l : list A) (i : Z) (x : A) :
  0 <= i < len l -> store l i x = Some (<[Z.to_nat i := x]> l).
Proof.
  intros H. unfold store.
  destruct (Z.leb_spec 0 i); [|lia].
  destruct (Z.ltb_spec i (len l)); [|lia]. reflexivity.
Qed.

Lemma index_store_eq {A} (l l' : list A) (i : Z) (x : A) :
  store l i x = Some l' -> index l' i = Some x.
Proof.
  intros H. apply store_Some in H as (Hi & -> & _). unfold index, len in *.
  destruct (Z.ltb_spec i 0); [lia|]. apply list_lookup_insert_eq. lia.
Qed.

Lemma index_store_ne {A} (l l' : list A) (i j : Z) (x : A) :
  store l i x = Some l' -> j <> i -> index l' j = index l j.
Proof.
  intros H Hne. apply store_Some in H as (Hi & -> & _). unfold index.
  destruct (Z.ltb_spec j 0); [reflexivity|].
  apply list_lookup_insert_ne. lia.
Qed.

Lemma index_in_range {A} (l : list A) (i : Z) :
  0 <= i < len l -> exists x, index l i = Some x.
Proof.
  intros H. unfold index, len in *. destruct (Z.ltb_spec i 0); [lia|].
  destruct (lookup_lt_is_Some_2 l (Z.to_nat i)) as [x Hx]; [lia|]. eauto.
Qed.

Lemma index_Some_range {A} (l : list A) (i : Z) (x : A) :
  index l i = Some x -> 0 <= i < len l.
Proof.
  unfold index, len. destruct (Z.ltb_spec i 0); [discriminate|].
  intros Hl. apply lookup_lt_Some in Hl. lia.
Qed.

Lemma index_replicate {A} (n i : Z) (x y : A) :
  index (replicate (Z.to_nat n) x) i = Some y -> y = x.
Proof.
  unfold index. destruct (i <? 0); [discriminate|].
  intros H. apply lookup_replicate in H. tauto.
Qed.

Lemma len_replicate {A} (n : Z) (x : A) :
  0 <= n -> len (replicate (Z.to_nat n) x) = n.
Proof. intros H. unfold len. rewrite length_replicate. lia. Qed.

Lemma bind_Ok {A B} (c : exec A) (k : A -> exec B) w b w' :
  bind c k w = (Ok b, w') ->
  exists a w1, c w = (Ok a, w1) /\ k a w1 = (Ok b, w').
Proof.
  unfold bind. destruct (c w) as [[a|e|] w1]; intros H; try discriminate.
  eauto.
Qed.

Lemma bind_ext {A B} (c : exec A) (k k' : A -> exec B) w :
  (forall a w1, k a w1 = k' a w1) -> bind c k w = bind c k' w.
Proof. intros H. unfold bind. destruct (c w) as [[a|e|] w1]; auto. Qed.

Lemma bind_step {A B} (c : exec A) (k : A -> exec B) w a w1 :
  c w = (Ok a, w1) -> bind c k w = k a w1.
Proof. unfold bind. intros ->. reflexivity. Qed.

Lemma must_Ok {A} (o : option A) w a w' :
  must o w = (Ok a, w') -> o = Some a /\ w' = w.
Proof. destruct o; simpl; unfold ret, panic; intros [= -> ->]; auto. Qed.

Lemma load_int_Ok l i w z w' :
  load_int l i w = (Ok z, w') -> index l i = Some (Some z) /\ w' = w.
Proof.
  unfold load_int. intros H. apply bind_Ok in H as (p & w1 & H1 & H2).
  apply must_Ok in H1 as [Hp ->]. apply must_Ok in H2 as [Hz ->].
  subst p. auto.
Qed.

Lemma load_int_step l i z w :
  index l i = Some (Some z) -> load_int l i w = (Ok z, w).
Proof. unfold load_int, bind. intros ->. reflexivity. Qed.

Lemma load_pub_Ok ring i w pk w' :
  load_pub ring i w = (Ok pk, w') ->
  exists p, index ring i = Some p /\ deref w p = Some pk /\ w' = w.
Proof.
  unfold load_pub, load_ptr. intros H.
  apply bind_Ok in H as (p & w1 & H1 & H2).
  apply must_Ok in H1 as [Hp ->]. apply must_Ok in H2 as [Hd ->]. eauto.
Qed.

Lemma load_pub_step ring i p pk w :
  index ring i = Some p -> deref w p = Some pk ->
  load_pub ring i w = (Ok pk, w).
Proof.
  intros H1 H2. unfold load_pub, load_ptr, bind. rewrite H1. simpl.
  rewrite H2. reflexivity.
Qed.

Lemma deref_same_heap w w' p : same_heap w w' -> deref w' p = deref w p.
Proof. intros [H1 H2]. destruct p; simpl; congruence. Qed.

Lemma same_heap_refl w : same_heap w w.
Proof. split; reflexivity. Qed.

Lemma same_heap_trans w1 w2 w3 :
  same_heap w1 w2 -> same_heap w2 w3 -> same_heap w1 w3.
Proof. intros [? ?] [? ?]. split; congruence. Qed.

Lemma rand_Int_Ok max w v w' :
  rand_Int max w = (Ok v, w') ->
  0 <= v < max /\ same_heap w w' /\ asked w' = asked w ++ [max].
Proof.
  unfold rand_Int. destruct (Z.leb_spec max 0); [discriminate|].
  destruct (ints w) as [|[r|] t]; intros [= <- <-]; simpl.
  split; [apply Z.mod_pos_bound; lia|]. split; [split|]; reflexivity.
Qed.

Lemma rand_Int_outcome max w r w' :
  rand_Int max w = (r, w') ->
  (exists v, r = Ok v) \/ r = Err ErrRand \/ r = Panic.
Proof.
  unfold rand_Int. destruct (max <=? 0); [intros [= <- <-]; auto|].
  destruct (ints w) as [|[v|] t]; intros [= <- <-]; eauto.
Qed.

(** ** Which errors can come out *)

Lemma errors_in_bind {A B} P (c : exec A) (k : A -> exec B) :
  errors_in P c -> (forall a, errors_in P (k a)) -> errors_in P (bind c k).
Proof.
  intros Hc Hk w e w'. unfold bind.
  destruct (c w) as [[a|e0|] w1] eqn:E; intros H.
  - eapply Hk; eauto.
  - injection H as <- <-. eapply Hc; eauto.
  - discriminate.
Qed.

Lemma errors_in_must {A} P (o : option A) : errors_in P (must o).
Proof. intros w e w'. destruct o; discriminate. Qed.

Lemma errors_in_ret {A} P (a : A) : errors_in P (ret a).
Proof. intros w e w'. discriminate. Qed.

Lemma errors_in_fail {A} (P : error -> Prop) e : P e -> errors_in P (@fail A e).
Proof. intros H w e' w'. intros [= <- <-]. exact H. Qed.

Lemma errors_in_rand_Int (P : error -> Prop) max :
  P ErrRand -> errors_in P (rand_Int max).
Proof.
  intros H w e w' Hr. destruct (rand_Int_outcome _ _ _ _ Hr) as [[v Hv]|[Hv|Hv]];
    congruence.
Qed.

Lemma errors_in_load_int P l i : errors_in P (load_int l i).
Proof.
  unfold load_int. apply errors_in_bind; [apply errors_in_must|].
  intros a. apply errors_in_must.
Qed.

Lemma errors_in_load_ptr P p : errors_in P (load_ptr p).
Proof. intros w e w'. unfold load_ptr. apply errors_in_must. Qed.

Lemma errors_in_load_pub P ring i : errors_in P (load_pub ring i).
Proof.
  unfold load_pub. apply errors_in_bind; [apply errors_in_must|].
  intros a. apply errors_in_load_ptr.
Qed.

Lemma errors_in_load_priv P p : errors_in P (load_priv p).
Proof. intros w e w'. unfold load_priv. apply errors_in_must. Qed.

Lemma errors_in_Public P p : errors_in P (Public p).
Proof.
  unfold Public. apply errors_in_bind; [apply errors_in_load_priv|].
  intros a. apply errors_in_ret.
Qed.

Lemma errors_in_weaken {A} (P Q : error -> Prop) (c : exec A) :
  errors_in P c -> (forall e, P e -> Q e) -> errors_in Q c.
Proof. intros H HPQ w e w' Hc. eauto. Qed.

Ltac errors_step :=
  first
    [ apply errors_in_ret
    | apply errors_in_must
    | apply errors_in_load_int
    | apply errors_in_load_pub
    | apply errors_in_load_ptr
    | apply errors_in_load_priv
    | apply errors_in_Public
    | apply errors_in_rand_Int; auto
    | apply errors_in_fail; auto
    | apply errors_in_bind; [|intros ?]
    | match goal with
      | |- errors_in _ (let '(_, _) := ?p in _) => destruct p
      | |- errors_in _ (match ?p with (_, _) => _ end) => destruct p
      | |- errors_in _ (if ?b then _ else _) => destruct b
      end ].

(** ** Positions around the ring *)

Lemma rem_is_mod a n : 0 <= a -> 0 < n -> Z.rem a n = a mod n.
Proof. intros. apply Z.rem_mod_nonneg; lia. Qed.

Lemma mod_succ a n : 0 < n -> (a mod n + 1) mod n = (a + 1) mod n.
Proof. intros. apply Zplus_mod_idemp_l. Qed.

Lemma mod_wrap s n : 0 <= s < n -> (s + n) mod n = s.
Proof.
  intros. replace (s + n) with (s + 1 * n) by lia.
  rewrite Z_mod_plus_full. apply Z.mod_small. lia.
Qed.

Lemma mod_shift_ne a d n : 0 < d < n -> (a + d) mod n <> a mod n.
Proof.
  intros Hd Heq. apply Z.cong_iff_0 in Heq.
  replace (a + d - a) with d in Heq by lia.
  rewrite Z.mod_small in Heq; lia.
Qed.

Lemma mod_pos_ne s t t' n : t < t' < t + n -> (s + t) mod n <> (s + t') mod n.
Proof.
  intros H Heq. apply (mod_shift_ne (s + t) (t' - t) n); [lia|].
  rewrite Heq. f_equal. lia.
Qed.

Lemma mod_range a n : 0 < n -> 0 <= a mod n < n.
Proof. intros. apply Z.mod_pos_bound. lia. Qed.

(** Every position is reached from [s] by one offset below [n]. *)
Lemma mod_offset s j n :
  0 <= s < n -> 0 <= j < n -> exists t, 0 <= t < n /\ j = (s + t) mod n.
Proof.
  intros Hs Hj. destruct (Z_le_gt_dec s j).
  - exists (j - s). split; [lia|]. rewrite Z.mod_small; lia.
  - exists (j - s + n). split; [lia|].
    replace (s + (j - s + n)) with (j + n) by lia. rewrite mod_wrap; lia.
Qed.

Ltac step H a w1 H1 := apply bind_Ok in H as (a & w1 & H1 & H).

(** ** Building a ring *)

Lemma GenerateKey_Some w sk t :
  keys w = Some sk :: t ->
  GenerateKey w =
    (Ok (length (privs w)),
     {| pubs := pubs w; privs := privs w ++ [sk]; ints := ints w;
        keys := t; asked := asked w |}).
Proof. unfold GenerateKey. intros ->. reflexivity. Qed.

Lemma GenerateKey_fails w :
  match keys w with Some _ :: _ => False | _ => True end ->
  exists w', GenerateKey w = (Err ErrRand, w').
Proof.
  unfold GenerateKey. destruct (keys w) as [|[sk|] t]; intros H;
    [eauto|destruct H|eauto].
Qed.

Lemma errors_in_GenNewKeyRing_loop k : forall i size s ring,
  errors_in (fun _ => False) (GenNewKeyRing_loop k i size s ring).
Proof.
  induction k as [|k IH]; intros i size s ring; simpl.
  - apply errors_in_ret.
  - apply errors_in_bind.
    + intros w e w'. unfold attempt.
      destruct (GenerateKey w) as [[a|e0|] w1]; discriminate.
    + intros [priv|e]; [|apply errors_in_ret].
      repeat errors_step. apply IH.
Qed.

Lemma GenNewKeyRing_loop_fails size s : 0 <= s < size ->
  forall k i ring w,
    1 <= i -> i + Z.of_nat k = size -> len ring = size ->
    fails_within k (keys w) = true ->
    exists w', GenNewKeyRing_loop k i size s ring w = (Ok None, w').
Proof.
  intros Hs. induction k as [|k IH]; intros i ring w Hi Hk Hl Hf;
    [discriminate|].
  simpl in *. unfold bind at 1, attempt.
  destruct (keys w) as [|[sk|] t] eqn:Hkeys.
  - destruct (GenerateKey_fails w) as [w' ->]; [rewrite Hkeys; exact I|].
    eexists. reflexivity.
  - rewrite (GenerateKey_Some w sk t Hkeys).
    unfold Public, load_priv, bind at 1 2. simpl.
    rewrite lookup_app_r by lia. rewrite Nat.sub_diag. simpl.
    rewrite rem_is_mod by lia.
    rewrite store_in_range by (rewrite Hl; apply mod_range; lia).
    unfold bind at 1. simpl.
    apply IH; try lia; [|exact Hf].
    unfold len in *. rewrite length_insert. exact Hl.
  - destruct (GenerateKey_fails w) as [w' ->]; [rewrite Hkeys; exact I|].
    eexists. reflexivity.
Qed.

Lemma GenNewKeyRing_loop_ok size s : 0 <= s < size ->
  forall k i ring w,
    1 <= i -> i + Z.of_nat k = size -> len ring = size ->
    fails_within k (keys w) = false ->
    exists ring' w',
      GenNewKeyRing_loop k i size s ring w = (Ok (Some ring'), w') /\
      len ring' = size /\
      pubs w' = pubs w /\
      (forall l x, privs w !! l = Some x -> privs w' !! l = Some x) /\
      (forall j, (forall t, i <= t < size -> j <> (s + t) mod size) ->
                 index ring' j = index ring j) /\
      (forall d : nat, (d < k)%nat ->
         exists ski, keys w !! d = Some (Some ski) /\
           index ring' ((s + i + Z.of_nat d) mod size)
             = Some (PubOfPriv (length (privs w) + d)%nat) /\
           privs w' !! (length (privs w) + d)%nat = Some ski).
Proof.
  intros Hs. induction k as [|k IH]; intros i ring w Hi Hk Hl Hf.
  - simpl. exists ring, w. repeat split; auto. intros d Hd. lia.
  - simpl in *. destruct (keys w) as [|[sk|] t] eqn:Hkeys; try discriminate.
    unfold bind at 1, attempt. rewrite (GenerateKey_Some w sk t Hkeys).
    unfold Public, load_priv, bind at 1 2. simpl.
    rewrite lookup_app_r by lia. rewrite Nat.sub_diag. simpl.
    rewrite rem_is_mod by lia.
    assert (Hst : store ring ((i + s) mod size) (PubOfPriv (length (privs w)))
                  = Some (<[Z.to_nat ((i + s) mod size)
                            := PubOfPriv (length (privs w))]> ring)).
    { apply store_in_range. rewrite Hl. apply mod_range. lia. }
    rewrite Hst. unfold bind at 1. simpl.
    set (w1 := {| pubs := pubs w; privs := privs w ++ [sk]; ints := ints w;
                  keys := t; asked := asked w |}).
    destruct (IH (i + 1) (<[Z.to_nat ((i + s) mod size)
                            := PubOfPriv (length (privs w))]> ring) w1)
      as (ring' & w' & Hrun & Hl' & Hpubs & Hold & Hframe & Hnew);
      try lia; [unfold len in *; rewrite length_insert; exact Hl|exact Hf|].
    exists ring', w'. split; [exact Hrun|]. split; [exact Hl'|].
    split; [exact Hpubs|]. split; [|split].
    + intros l x Hx. apply Hold. simpl. apply lookup_app_l_Some. exact Hx.
    + intros j Hj. rewrite Hframe by (intros t' Ht'; apply Hj; lia).
      eapply index_store_ne; [exact Hst|].
      rewrite Z.add_comm. apply Hj. lia.
    + intros d Hd. destruct d as [|d].
      * exists sk. split; [reflexivity|]. split.
        { rewrite Z.add_0_r, Nat.add_0_r.
          rewrite Hframe by (intros t' Ht'; apply mod_pos_ne; lia).
          rewrite (Z.add_comm s i). eapply index_store_eq. exact Hst. }
        { rewrite Nat.add_0_r. apply Hold. simpl.
          rewrite lookup_app_r by lia. rewrite Nat.sub_diag. reflexivity. }
      * destruct (Hnew d) as (ski & Hk1 & Hk2 & Hk3); [lia|].
        exists ski. split; [exact Hk1|]. simpl in Hk2, Hk3.
        rewrite length_app in Hk2, Hk3. simpl in Hk2, Hk3.
        replace (length (privs w) + 1 + d)%nat
          with (length (privs w) + S d)%nat in Hk2, Hk3 by lia.
        split; [|exact Hk3].
        replace (s + i + Z.of_nat (S d)) with (s + (i + 1) + Z.of_nat d) by lia.
        exact Hk2.
Qed.

Lemma errors_in_GenNewKeyRing size privkey s :
  errors_in (fun _ => False) (GenNewKeyRing size privkey s).
Proof.
  unfold GenNewKeyRing. repeat errors_step.
  apply errors_in_GenNewKeyRing_loop.
Qed.

(** C7, amended: for a signer index inside [0, size) and an existing
    signer key, when one of the [size - 1] key generations fails (or the
    source is exhausted), [GenNewKeyRing] returns a nil ring, as a normal
    return value. *)
Theorem GenNewKeyRing_failure size privkey s w :
  0 <= s < size -> is_Some (privs w !! privkey) ->
  fails_within (Z.to_nat (size - 1)) (keys w) = true ->
  exists w', GenNewKeyRing size privkey s w = (Ok None, w').
Proof.
  intros Hs [sk Hsk] Hf. unfold GenNewKeyRing, make_ring.
  destruct (Z.ltb_spec size 0); [lia|]. unfold bind at 1. simpl.
  unfold Public, load_priv, bind at 1 2. rewrite Hsk. simpl.
  rewrite store_in_range by (rewrite len_replicate; lia).
  unfold bind at 1. simpl.
  apply GenNewKeyRing_loop_fails; try lia; [|exact Hf].
  unfold len. rewrite length_insert, length_replicate. lia.
Qed.

Lemma GenNewKeyRing_layout size privkey s w sk :
  2 <= size -> 0 <= s < size -> privs w !! privkey = Some sk ->
  fails_within (Z.to_nat (size - 1)) (keys w) = false ->
  exists ring w',
    GenNewKeyRing size privkey s w = (Ok (Some ring), w') /\
    len ring = size /\
    index ring s = Some (PubOfPriv privkey) /\
    deref w' (PubOfPriv privkey) = Some (ecdsa.EmbeddedPublicKey sk) /\
    forall d : nat, Z.of_nat d < size - 1 ->
      exists ski,
        keys w !! d = Some (Some ski) /\
        privs w !! (length (privs w) + d)%nat = None /\
        index ring ((s + 1 + Z.of_nat d) mod size)
          = Some (PubOfPriv (length (privs w) + d)%nat) /\
        deref w' (PubOfPriv (length (privs w) + d)%nat)
          = Some (ecdsa.EmbeddedPublicKey ski).
Proof.
  intros Hn Hs Hsk Hf. unfold GenNewKeyRing, make_ring.
  destruct (Z.ltb_spec size 0); [lia|]. unfold bind at 1. simpl.
  unfold Public, load_priv, bind at 1 2. rewrite Hsk. simpl.
  assert (Hst : store (replicate (Z.to_nat size) NilPub) s (PubOfPriv privkey)
                = Some (<[Z.to_nat s := PubOfPriv privkey]>
                          (replicate (Z.to_nat size) NilPub))).
  { apply store_in_range. rewrite len_replicate; lia. }
  rewrite Hst. unfold bind at 1. simpl.
  destruct (GenNewKeyRing_loop_ok size s Hs (Z.to_nat (size - 1)) 1
              (<[Z.to_nat s := PubOfPriv privkey]>
                 (replicate (Z.to_nat size) NilPub)) w)
    as (ring & w' & Hrun & Hl & _ & Hold & Hframe & Hnew); try lia.
  { unfold len. rewrite length_insert, length_replicate. lia. }
  { exact Hf. }
  exists ring, w'. split; [exact Hrun|]. split; [exact Hl|]. split; [|split].
  - rewrite Hframe.
    + eapply index_store_eq. exact Hst.
    + intros t Ht. rewrite <- (Z.mod_small s size) at 1 by lia.
      rewrite <- (Z.add_0_r s) at 1. apply mod_pos_ne. lia.
  - unfold deref. rewrite (Hold _ _ Hsk). reflexivity.
  - intros d Hd. destruct (Hnew d) as (ski & Hk1 & Hk2 & Hk3); [lia|].
    exists ski. split; [exact Hk1|]. split; [apply lookup_ge_None; lia|].
    split; [exact Hk2|]. unfold deref. rewrite Hk3. reflexivity.
Qed.

Lemma index_ext {A} (l1 l2 : list A) :
  len l1 = len l2 ->
  (forall j, 0 <= j < len l1 -> index l1 j = index l2 j) ->
  l1 = l2.
Proof.
  intros Hl H. apply list_eq. intros i.
  destruct (Z_lt_ge_dec (Z.of_nat i) (len l1)) as [Hi|Hi].
  - specialize (H (Z.of_nat i)). unfold index in H.
    destruct (Z.ltb_spec (Z.of_nat i) 0); [lia|].
    rewrite Nat2Z.id in H. apply H. lia.
  - rewrite !lookup_ge_None_2; [reflexivity| |]; unfold len in *; lia.
Qed.

Lemma fails_within_public k : forall t1 t2,
  public_tape t1 = public_tape t2 -> fails_within k t1 = fails_within k t2.
Proof.
  induction k as [|k IH]; intros t1 t2 H; simpl; [reflexivity|].
  destruct t1 as [|[a|] t1], t2 as [|[b|] t2]; simpl in H; try discriminate;
    try reflexivity.
  injection H as _ H. apply IH. exact H.
Qed.

Lemma public_tape_lookup t1 t2 d a b :
  public_tape t1 = public_tape t2 ->
  t1 !! d = Some (Some a) -> t2 !! d = Some (Some b) ->
  ecdsa.EmbeddedPublicKey a = ecdsa.EmbeddedPublicKey b.
Proof.
  intros H H1 H2.
  assert (E1 : public_tape t1 !! d = Some (Some (ecdsa.EmbeddedPublicKey a))).
  { unfold public_tape. rewrite list_lookup_fmap, H1. reflexivity. }
  assert (E2 : public_tape t2 !! d = Some (Some (ecdsa.EmbeddedPublicKey b))).
  { unfold public_tape. rewrite list_lookup_fmap, H2. reflexivity. }
  rewrite H in E1. congruence.
Qed.

(** C8: for [size >= 2], an index inside [0, size) and a random source
    that does not fail, [GenNewKeyRing] returns a ring of exactly [size]
    entries; the entry at [s] is the signer's public key; the entry at
    offset [1 + d] from [s] is the public key of the [d]-th generated key
    pair, held in an object that did not exist before.  The private
    scalars are not returned: the ring, and every public key it points
    to, are the same for any other source that yields key pairs with the
    same public halves. *)
Theorem GenNewKeyRing_builds size privkey s w sk :
  2 <= size -> 0 <= s < size -> privs w !! privkey = Some sk ->
  fails_within (Z.to_nat (size - 1)) (keys w) = false ->
  exists ring w',
    GenNewKeyRing size privkey s w = (Ok (Some ring), w') /\
    len ring = size /\
    index ring s = Some (PubOfPriv privkey) /\
    deref w' (PubOfPriv privkey) = Some (ecdsa.EmbeddedPublicKey sk) /\
    (forall d : nat, Z.of_nat d < size - 1 ->
      exists ski,
        keys w !! d = Some (Some ski) /\
        privs w !! (length (privs w) + d)%nat = None /\
        index ring ((s + 1 + Z.of_nat d) mod size)
          = Some (PubOfPriv (length (privs w) + d)%nat) /\
        deref w' (PubOfPriv (length (privs w) + d)%nat)
          = Some (ecdsa.EmbeddedPublicKey ski)) /\
    (forall w2,
       privs w2 = privs w ->
       public_tape (keys w2) = public_tape (keys w) ->
       exists w2',
         GenNewKeyRing size privkey s w2 = (Ok (Some ring), w2') /\
         forall j p, index ring j = Some p -> deref w2' p = deref w' p).
Proof.
  intros Hn Hs Hsk Hf.
  destruct (GenNewKeyRing_layout size privkey s w sk Hn Hs Hsk Hf)
    as (ring & w' & Hrun & Hl & Hrs & Hds & Hnew).
  exists ring, w'. repeat (split; [assumption|]).
  intros w2 Hp2 Hk2.
  assert (Hsk2 : privs w2 !! privkey = Some sk) by (rewrite Hp2; exact Hsk).
  assert (Hf2 : fails_within (Z.to_nat (size - 1)) (keys w2) = false).
  { rewrite (fails_within_public _ _ _ Hk2). exact Hf. }
  destruct (GenNewKeyRing_layout size privkey s w2 sk Hn Hs Hsk2 Hf2)
    as (ring2 & w2' & Hrun2 & Hl2 & Hrs2 & Hds2 & Hnew2).
  assert (Hcase : forall j, 0 <= j < size ->
            j = s \/ exists d : nat, Z.of_nat d < size - 1 /\
                                     j = (s + 1 + Z.of_nat d) mod size).
  { intros j Hj. destruct (mod_offset s j size Hs Hj) as (t & Ht & ->).
    destruct (Z.eq_dec t 0) as [->|Ht0].
    - left. rewrite Z.add_0_r. apply Z.mod_small. lia.
    - right. exists (Z.to_nat (t - 1)). split; [lia|]. f_equal. lia. }
  assert (Heq : ring2 = ring).
  { apply index_ext; [congruence|]. intros j Hj. rewrite Hl2 in Hj.
    destruct (Hcase j Hj) as [->|(d & Hd & ->)]; [congruence|].
    destruct (Hnew d Hd) as (ski & _ & _ & Hi & _).
    destruct (Hnew2 d Hd) as (ski2 & _ & _ & Hi2 & _).
    rewrite Hi, Hi2, Hp2. reflexivity. }
  subst ring2. exists w2'. split; [exact Hrun2|].
  intros j p Hp. pose proof (index_Some_range _ _ _ Hp) as Hj.
  rewrite Hl in Hj.
  destruct (Hcase j Hj) as [->|(d & Hd & ->)].
  - rewrite Hrs in Hp. injection Hp as <-. congruence.
  - destruct (Hnew d Hd) as (ski & Hk & _ & Hi & Hdr).
    destruct (Hnew2 d Hd) as (ski2 & Hk' & _ & Hi2 & Hdr2).
    rewrite Hi in Hp. injection Hp as <-.
    rewrite Hdr. rewrite Hp2 in Hdr2. rewrite Hdr2.
    f_equal. eapply public_tape_lookup; eauto.
Qed.

(** ** What the random source is asked for *)

Section Runs.

Variable R : World -> World -> Prop.
Hypothesis R_refl : forall w, R w w.
Hypothesis R_trans : forall w1 w2 w3, R w1 w2 -> R w2 w3 -> R w1 w3.

Lemma runs_in_ret {A} (a : A) : runs_in R (ret a).
Proof. intros w r w' [= <- <-]. apply R_refl. Qed.

Lemma runs_in_fail {A} e : runs_in R (@fail A e).
Proof. intros w r w' [= <- <-]. apply R_refl. Qed.

Lemma runs_in_must {A} (o : option A) : runs_in R (must o).
Proof. intros w r w'. destruct o; intros [= <- <-]; apply R_refl. Qed.

Lemma runs_in_bind {A B} (c : exec A) (k : A -> exec B) :
  runs_in R c -> (forall a, runs_in R (k a)) -> runs_in R (bind c k).
Proof.
  intros Hc Hk w r w'. unfold bind.
  destruct (c w) as [[a|e|] w1] eqn:E; intros H.
  - eapply R_trans; [eapply Hc; eauto|eapply Hk; eauto].
  - injection H as <- <-. eapply Hc; eauto.
  - injection H as <- <-. eapply Hc; eauto.
Qed.

Lemma runs_in_load_int l i : runs_in R (load_int l i).
Proof.
  unfold load_int. apply runs_in_bind; [apply runs_in_must|].
  intros a. apply runs_in_must.
Qed.

Lemma runs_in_load_ptr p : runs_in R (load_ptr p).
Proof. intros w r w'. unfold load_ptr. apply runs_in_must. Qed.

Lemma runs_in_load_pub ring i : runs_in R (load_pub ring i).
Proof.
  unfold load_pub. apply runs_in_bind; [apply runs_in_must|].
  intros a. apply runs_in_load_ptr.
Qed.

Lemma runs_in_load_priv p : runs_in R (load_priv p).
Proof. intros w r w'. unfold load_priv. apply runs_in_must. Qed.

Lemma runs_in_Public p : runs_in R (Public p).
Proof.
  unfold Public. apply runs_in_bind; [apply runs_in_load_priv|].
  intros a. apply runs_in_ret.
Qed.

End Runs.

Lemma asked_only_refl b w : asked_only b w w.
Proof. exists 0%nat. simpl. rewrite app_nil_r. reflexivity. Qed.

Lemma asked_only_trans b w1 w2 w3 :
  asked_only b w1 w2 -> asked_only b w2 w3 -> asked_only b w1 w3.
Proof.
  intros [k1 H1] [k2 H2]. exists (k1 + k2)%nat.
  rewrite H2, H1, <- app_assoc, replicate_add. reflexivity.
Qed.

Lemma runs_in_rand_Int b : runs_in (asked_only b) (rand_Int b).
Proof.
  intros w r w'. unfold rand_Int.
  destruct (b <=? 0); [intros [= <- <-]; apply asked_only_refl|].
  destruct (ints w) as [|[v|] t]; intros [= <- <-]; exists 1%nat; reflexivity.
Qed.

Ltac runs_step :=
  first
    [ apply runs_in_ret; apply asked_only_refl
    | apply runs_in_fail; apply asked_only_refl
    | apply runs_in_must; apply asked_only_refl
    | apply runs_in_load_int; apply asked_only_refl
    | apply runs_in_load_pub; apply asked_only_refl
    | apply runs_in_load_ptr; apply asked_only_refl
    | apply runs_in_load_priv; apply asked_only_refl
    | apply runs_in_Public; apply asked_only_refl
    | apply runs_in_rand_Int
    | apply runs_in_bind; [apply asked_only_trans| |intros ?]
    | match goal with
      | |- runs_in _ (let '(_, _) := ?p in _) => destruct p
      | |- runs_in _ (match ?p with (_, _) => _ end) => destruct p
      | |- runs_in _ (if ?b then _ else _) => destruct b
      end ].

(** ** Sign and Verify *)

Section Proofs.

Variable Sum256 : list byte -> list byte.

(** *** Validation *)

Lemma errors_in_Sign_loop curve m ring s n k : forall i C Ss,
  errors_in (fun e => e = ErrRand) (Sign_loop Sum256 curve m ring s n k i C Ss).
Proof.
  induction k as [|k IH]; intros i C Ss; simpl.
  - apply errors_in_ret.
  - repeat errors_step; apply IH.
Qed.

(** C6: [Sign] validates in a fixed order and the first failure wins.  For
    a signer key that exists: a ring shorter than two gives the ring-size
    error whatever the other arguments are; otherwise an index outside
    [0, len ring) gives the index error; otherwise a ring entry at [s] that
    is not the signer's public key (as [Sign] compares them) gives the
    not-signer error.  In these three cases the world is untouched, so
    nothing was drawn.  Only when all three checks pass does the signing
    algorithm run, and its outcome is then none of the three errors. *)
Theorem Sign_validation_order m ring privkey s w :
  is_Some (privs w !! privkey) ->
  (len ring < 2 -> Sign Sum256 m ring privkey s w = (Err ErrRingSize, w)) /\
  (2 <= len ring -> s < 0 \/ len ring <= s ->
     Sign Sum256 m ring privkey s w = (Err ErrIndexRange, w)) /\
  (2 <= len ring -> 0 <= s < len ring ->
     index ring s <> Some (PubOfPriv privkey) ->
     Sign Sum256 m ring privkey s w = (Err ErrNotSigner, w)) /\
  (2 <= len ring -> 0 <= s < len ring ->
     index ring s = Some (PubOfPriv privkey) ->
     ~ validation_error (fst (Sign Sum256 m ring privkey s w))).
Proof.
  intros [sk Hsk]. unfold Sign.
  assert (HP : Public privkey w = (Ok (PubOfPriv privkey), w)).
  { unfold Public, load_priv, bind. rewrite Hsk. reflexivity. }
  assert (HL : load_ptr (PubOfPriv privkey) w = (Ok (ecdsa.EmbeddedPublicKey sk), w)).
  { unfold load_ptr. simpl. rewrite Hsk. reflexivity. }
  repeat split.
  - intros Hn. destruct (Z.ltb_spec (len ring) 2); [reflexivity|lia].
  - intros Hn Hs. destruct (Z.ltb_spec (len ring) 2); [lia|].
    destruct (Z.geb_spec s (len ring)); simpl; [reflexivity|].
    destruct (Z.ltb_spec s 0); [reflexivity|lia].
  - intros Hn Hs Hne. destruct (Z.ltb_spec (len ring) 2); [lia|].
    destruct (Z.geb_spec s (len ring)); simpl; [lia|].
    destruct (Z.ltb_spec s 0); [lia|].
    rewrite (bind_step _ _ _ _ _ HP), (bind_step _ _ _ _ _ HL).
    destruct (index_in_range ring s) as [p Hp]; [lia|].
    rewrite Hp. unfold bind at 1. simpl.
    rewrite bool_decide_eq_false_2; [reflexivity|congruence].
  - intros Hn Hs He. destruct (Z.ltb_spec (len ring) 2); [lia|].
    destruct (Z.geb_spec s (len ring)); simpl; [lia|].
    destruct (Z.ltb_spec s 0); [lia|].
    rewrite (bind_step _ _ _ _ _ HP), (bind_step _ _ _ _ _ HL).
    rewrite He. unfold bind at 1. simpl.
    rewrite bool_decide_eq_true_2 by reflexivity. simpl.
    match goal with |- ~ validation_error (fst (?c w)) =>
      assert (HE : errors_in (fun e => e = ErrRand \/ e = ErrClosing) c) end.
    { repeat errors_step.
      all: try (eapply errors_in_weaken; [apply errors_in_Sign_loop|]; simpl; auto).
      all: repeat errors_step. }
    unfold validation_error.
    match goal with |- context [fst ?x] =>
      destruct x as [[sg|e|] w'] eqn:E end; simpl;
      intros [Hv|[Hv|Hv]]; try discriminate;
      destruct (HE _ _ _ E); congruence.
Qed.

(** *** The chain of challenges *)

Lemma linked_frame w w' curve m ring C Ss C' Ss' n j :
  same_heap w w' ->
  index C' j = index C j -> index Ss' j = index Ss j ->
  index C' ((j + 1) mod n) = index C ((j + 1) mod n) ->
  linked Sum256 w curve m ring C Ss n j ->
  linked Sum256 w' curve m ring C' Ss' n j.
Proof.
  intros Hh H1 H2 H3 (p & pk & c & sv & c' & L1 & L2 & L3 & L4 & L5 & L6).
  exists p, pk, c, sv, c'.
  rewrite (deref_same_heap _ _ _ Hh), H1, H2, H3. repeat split; assumption.
Qed.

Lemma Sign_loop_links curve m ring s n :
  0 <= s < n ->
  forall k i C Ss w C' Ss' w',
    1 <= i -> i + Z.of_nat k = n -> len C = n -> len Ss = n ->
    Sign_loop Sum256 curve m ring s n k i C Ss w = (Ok (C', Ss'), w') ->
    len C' = n /\ len Ss' = n /\ same_heap w w' /\
    (forall j, (forall t, i + 1 <= t <= n -> j <> (s + t) mod n) ->
               index C' j = index C j) /\
    (forall j, (forall t, i <= t < n -> j <> (s + t) mod n) ->
               index Ss' j = index Ss j) /\
    (forall t, i <= t < n ->
               linked Sum256 w' curve m ring C' Ss' n ((s + t) mod n)).
Proof.
  intros Hs. induction k as [|k IH]; intros i C Ss w C' Ss' w' Hi Hk HC HS Hrun.
  - simpl in Hrun. injection Hrun as <- <- <-.
    repeat split; auto; try apply same_heap_refl. intros t Ht. lia.
  - simpl in Hrun.
    rewrite rem_is_mod in Hrun by lia.
    step Hrun s_i w1 Hrand. apply rand_Int_Ok in Hrand as (_ & Hh1 & _).
    step Hrun Ss1 w2 HSs. apply must_Ok in HSs as [HSs ->].
    step Hrun pk w2 Hpk. apply load_pub_Ok in Hpk as (p & Hp & Hd & ->).
    step Hrun c w2 Hc. apply load_int_Ok in Hc as [Hc ->].
    destruct (elliptic.ScalarMult _ _ _ _) as [px py] eqn:E1.
    destruct (elliptic.ScalarBaseMult _ _) as [sx sy] eqn:E2.
    destruct (elliptic.Add _ _ _ _ _) as [tx ty] eqn:E3.
    step Hrun C1 w2 HC1.
    assert (HC1' : store C ((s + (i + 1)) mod n)
              (Some (big.SetBytes (Sum256 (m ++ big.Bytes tx ++ big.Bytes ty)))) = Some C1
            /\ w2 = w1).
    { destruct (Z.eqb_spec i (n - 1)) as [->|Hne].
      - apply must_Ok in HC1 as [HC1 ->]. split; [|reflexivity].
        replace (s + (n - 1 + 1)) with (s + n) by lia. rewrite mod_wrap; auto.
      - rewrite rem_is_mod in HC1 by (pose proof (mod_range (s + i) n); lia).
        apply must_Ok in HC1 as [HC1 ->]. split; [|reflexivity].
        rewrite mod_succ in HC1 by lia. rewrite Z.add_assoc. exact HC1. }
    clear HC1. destruct HC1' as [HC1 ->].
    pose proof (store_Some _ _ _ _ HC1) as (_ & _ & HlC1).
    pose proof (store_Some _ _ _ _ HSs) as (_ & _ & HlS1).
    apply IH in Hrun as (HlC & HlS & Hh2 & HfC & HfS & Hlk); try lia.
    assert (Hh : same_heap w w') by (eapply same_heap_trans; eauto).
    split; [exact HlC|]. split; [exact HlS|]. split; [exact Hh|].
    split; [|split].
    + intros j Hj. rewrite HfC by (intros t Ht; apply Hj; lia).
      eapply index_store_ne; [exact HC1|]. apply Hj. lia.
    + intros j Hj. rewrite HfS by (intros t Ht; apply Hj; lia).
      eapply index_store_ne; [exact HSs|]. apply Hj. lia.
    + intros t Ht. destruct (Z.eq_dec t i) as [->|Hti]; [|apply Hlk; lia].
      exists p, pk, c, s_i,
        (big.SetBytes (Sum256 (m ++ big.Bytes tx ++ big.Bytes ty))).
      split; [exact Hp|].
      split; [rewrite (deref_same_heap _ _ _ Hh2); exact Hd|].
      split.
      { rewrite HfC by (intros t Ht'; apply mod_pos_ne; lia).
        rewrite (index_store_ne _ _ _ _ _ HC1) by (apply mod_pos_ne; lia).
        exact Hc. }
      split.
      { rewrite HfS by (intros t Ht'; apply mod_pos_ne; lia).
        eapply index_store_eq; eauto. }
      split.
      { rewrite mod_succ by lia. rewrite <- Z.add_assoc.
        rewrite HfC by (intros t Ht'; apply mod_pos_ne; lia).
        eapply index_store_eq; eauto. }
      unfold challenge. rewrite E1, E2, E3. reflexivity.
Qed.

Lemma Public_Ok privkey w p w' :
  Public privkey w = (Ok p, w') ->
  p = PubOfPriv privkey /\ w' = w /\ is_Some (privs w !! privkey).
Proof.
  unfold Public, load_priv. intros H. step H sk w1 H1.
  apply must_Ok in H1 as [H1 ->]. injection H as <- <-. eauto.
Qed.

Lemma Sign_Ok m ring privkey s w sig w' :
  Sign Sum256 m ring privkey s w = (Ok sig, w') ->
  exists sk C,
    2 <= len ring /\ 0 <= s < len ring /\
    index ring s = Some (PubOfPriv privkey) /\
    privs w !! privkey = Some sk /\
    same_heap w w' /\
    RingSign.Size sig = len ring /\
    RingSign.M sig = m /\
    RingSign.Ring sig = ring /\
    RingSign.Curve sig = Some (ecdsa.Curve (ecdsa.EmbeddedPublicKey sk)) /\
    len C = len ring /\
    len (RingSign.S sig) = len ring /\
    index C 0 = Some (RingSign.C sig) /\
    (forall j, 0 <= j < len ring ->
      linked Sum256 w' (ecdsa.Curve (ecdsa.EmbeddedPublicKey sk)) m ring C
        (RingSign.S sig) (len ring) j) /\
    exists u c_s r,
      0 <= u < elliptic.P (elliptic.Params
                             (ecdsa.Curve (ecdsa.EmbeddedPublicKey sk))) /\
      index C s = Some (Some c_s) /\
      big.Mod (c_s * ecdsa.D sk)
        (elliptic.N (elliptic.Params
                       (ecdsa.Curve (ecdsa.EmbeddedPublicKey sk)))) = Some r /\
      index (RingSign.S sig) s = Some (Some (u - r)).
Proof.
  unfold Sign. set (n := len ring).
  destruct (Z.ltb_spec n 2) as [|Hn]; [discriminate|].
  destruct (Z.geb_spec s n) as [|Hs1]; simpl; [discriminate|].
  destruct (Z.ltb_spec s 0) as [|Hs0]; [discriminate|].
  intros H.
  step H pubkey w1 HP. apply Public_Ok in HP as (-> & -> & _).
  step H pko w1 HL. unfold load_ptr in HL. apply must_Ok in HL as [HL ->].
  simpl in HL. destruct (privs w !! privkey) as [sk|] eqn:Hsk; [|discriminate].
  injection HL as <-.
  set (curve := ecdsa.Curve (ecdsa.EmbeddedPublicKey sk)) in *.
  step H ring_s w1 Hrs. apply must_Ok in Hrs as [Hrs ->].
  destruct (bool_decide (ring_s = PubOfPriv privkey)) eqn:Hdec;
    simpl in H; [|discriminate].
  apply bool_decide_eq_true_1 in Hdec. subst ring_s.
  step H C0 w1 HC0. apply must_Ok in HC0 as [HC0 ->].
  step H S0 w1 HS0. apply must_Ok in HS0 as [HS0 ->].
  unfold make in HC0, HS0. destruct (Z.ltb_spec n 0); [lia|].
  injection HC0 as <-. injection HS0 as <-.
  step H u w1 Hu. apply rand_Int_Ok in Hu as (Hur & Hh1 & _).
  destruct (elliptic.ScalarBaseMult curve (big.Bytes u)) as [ux uy] eqn:Eu.
  rewrite rem_is_mod in H by lia.
  step H C1 w2 HC1. apply must_Ok in HC1 as [HC1 ->].
  pose proof (store_Some _ _ _ _ HC1) as (_ & _ & HlC1).
  rewrite len_replicate in HlC1 by lia.
  step H CS w2 Hloop. destruct CS as [C Ss].
  apply (Sign_loop_links curve m ring s n) in Hloop
    as (HlC & HlS & Hh2 & _ & HfS & Hlk);
    [|lia|lia|lia|exact HlC1|apply len_replicate; lia].
  step H c_s w3 Hcs. apply load_int_Ok in Hcs as [Hcs ->].
  step H sk' w3 Hsk'. unfold load_priv in Hsk'.
  apply must_Ok in Hsk' as [Hsk' ->].
  step H r w3 Hr. apply must_Ok in Hr as [Hr ->].
  step H Ss2 w3 HSs2. apply must_Ok in HSs2 as [HSs2 ->].
  pose proof (store_Some _ _ _ _ HSs2) as (_ & _ & HlS2).
  step H pk w3 Hpk. apply load_pub_Ok in Hpk as (p & Hp & Hd & ->).
  step H c_s' w3 Hcs'. apply load_int_Ok in Hcs' as [Hcs' ->].
  rewrite Hcs in Hcs'. injection Hcs' as <-.
  destruct (elliptic.ScalarMult _ _ _ _) as [px py] eqn:E1.
  step H s_s w3 Hss. apply load_int_Ok in Hss as [Hss ->].
  destruct (elliptic.ScalarBaseMult curve (big.Bytes s_s)) as [sx sy] eqn:E2.
  destruct (elliptic.Add _ _ _ _ _) as [tx ty] eqn:E3.
  destruct (bytes.Equal (big.Bytes tx) (big.Bytes ux)); simpl in H;
    [|discriminate].
  destruct (bytes.Equal (big.Bytes ty) (big.Bytes uy)); simpl in H;
    [|discriminate].
  step H c_1 w3 Hc1. apply load_int_Ok in Hc1 as [Hc1 ->].
  destruct (bytes.Equal (big.Bytes c_1) _) eqn:Eq; simpl in H; [|discriminate].
  apply Equal_eq in Eq.
  step H c_0 w3 Hc0. apply must_Ok in Hc0 as [Hc0 ->].
  injection H as <- <-. simpl.
  exists sk, C.
  assert (Hh : same_heap w w2) by (eapply same_heap_trans; eauto).
  repeat (split; [first [assumption | reflexivity | lia]|]).
  split.
  2:{ exists u, c_s, r. split; [exact Hur|]. split; [exact Hcs|].
      assert (sk' = sk) as ->.
      { destruct Hh as [_ Hprivs]. rewrite Hprivs, Hsk in Hsk'. congruence. }
      split; [exact Hr|]. eapply index_store_eq. exact HSs2. }
  intros j Hj. destruct (mod_offset s j n) as (t & Ht & ->); [lia|lia|].
  destruct (Z.eq_dec t 0) as [->|Ht0].
  - rewrite Z.add_0_r, (Z.mod_small s n) by lia.
    exists p, pk, c_s, s_s, c_1.
    repeat (split; [assumption|]).
    rewrite Eq. unfold challenge. fold curve. rewrite E1, E2, E3. reflexivity.
  - assert (Hne : (s + t) mod n <> s).
    { rewrite <- (Z.mod_small s n) at 2 by lia.
      rewrite <- (Z.add_0_r s) at 2. intros Heq.
      symmetry in Heq. revert Heq. apply mod_pos_ne. lia. }
    eapply linked_frame; [apply same_heap_refl|reflexivity| |reflexivity|].
    + eapply index_store_ne; eauto.
    + apply Hlk. lia.
Qed.

(** The loop of [Verify] under an invariant [Inv i c] on the position and
    the challenge stored there. *)
Lemma Verify_loop_inv (Inv : Z -> Z -> Prop) curve sig w :
  let n := RingSign.Size sig in
  (forall i, 0 <= i < n ->
     exists p pk sv, index (RingSign.Ring sig) i = Some p /\
       deref w p = Some pk /\ index (RingSign.S sig) i = Some (Some sv) /\
       forall c, Inv i c ->
         Inv ((i + 1) mod n)
           (challenge Sum256 curve (RingSign.M sig) pk (big.Bytes c) (big.Bytes sv))) ->
  forall k i C c,
    0 <= i -> i + Z.of_nat k = n -> (1 <= k)%nat -> len C = n ->
    index C i = Some (Some c) -> Inv i c ->
    exists C' c', Verify_loop Sum256 curve sig k i C w = (Ok C', w) /\
      index C' 0 = Some (Some c') /\ Inv 0 c'.
Proof.
  intros n Hwf. induction k as [|k IH]; intros i C c Hi Hk Hk1 HC Hc HI; [lia|].
  destruct (Hwf i) as (p & pk & sv & Hp & Hd & Hs & Hstep); [lia|].
  specialize (Hstep c HI).
  simpl. fold n.
  rewrite (bind_step _ _ _ _ _ (load_pub_step _ _ _ _ _ Hp Hd)).
  rewrite (bind_step _ _ _ _ _ (load_int_step _ _ _ _ Hc)).
  unfold challenge in Hstep.
  destruct (elliptic.ScalarMult _ _ _ _) as [px py].
  rewrite (bind_step _ _ _ _ _ (load_int_step _ _ _ _ Hs)).
  destruct (elliptic.ScalarBaseMult _ _) as [sx sy].
  destruct (elliptic.Add _ _ _ _ _) as [tx ty].
  set (c1 := big.SetBytes _) in *.
  destruct (Z.eqb_spec i (n - 1)) as [Hlast|Hnot].
  - assert (k = 0%nat) by lia. subst k.
    rewrite (store_in_range C 0) by lia. unfold bind at 1. simpl.
    exists (<[Z.to_nat 0 := Some c1]> C), c1.
    split; [reflexivity|]. split.
    + eapply index_store_eq. apply store_in_range. lia.
    + replace (i + 1) with n in Hstep by lia.
      rewrite Z_mod_same_full in Hstep. exact Hstep.
  - rewrite (store_in_range C (i + 1)) by lia. unfold bind at 1. simpl.
    rewrite Z.mod_small in Hstep by lia.
    apply (IH (i + 1) _ c1); try lia.
    + unfold len in *. rewrite length_insert. exact HC.
    + eapply index_store_eq. apply store_in_range. lia.
    + exact Hstep.
Qed.

Lemma Verify_inv (Inv : Z -> Z -> Prop) sig w p0 pk0 c0 :
  let n := RingSign.Size sig in
  1 <= n ->
  RingSign.C sig = Some c0 ->
  index (RingSign.Ring sig) 0 = Some p0 -> deref w p0 = Some pk0 ->
  (forall i, 0 <= i < n ->
     exists p pk sv, index (RingSign.Ring sig) i = Some p /\
       deref w p = Some pk /\ index (RingSign.S sig) i = Some (Some sv) /\
       forall c, Inv i c ->
         Inv ((i + 1) mod n)
           (challenge Sum256 (ecdsa.Curve pk0) (RingSign.M sig) pk
              (big.Bytes c) (big.Bytes sv))) ->
  Inv 0 c0 ->
  exists c', Verify Sum256 sig w
             = (Ok (bytes.Equal (big.Bytes c0) (big.Bytes c')), w) /\
             Inv 0 c'.
Proof.
  intros n Hn HC Hp0 Hd0 Hwf HI. unfold Verify. fold n.
  unfold make. destruct (Z.ltb_spec n 0); [lia|].
  unfold bind at 1. simpl.
  rewrite store_in_range by (rewrite len_replicate; lia).
  unfold bind at 1. simpl.
  rewrite (bind_step _ _ _ _ _ (load_pub_step _ _ _ _ _ Hp0 Hd0)).
  destruct (Verify_loop_inv Inv (ecdsa.Curve pk0) sig w Hwf (Z.to_nat n) 0
              (<[Z.to_nat 0 := RingSign.C sig]> (replicate (Z.to_nat n) None)) c0)
    as (C' & c' & Hrun & Hc' & HI'); try lia.
  - unfold len. rewrite length_insert, length_replicate. fold n. lia.
  - rewrite <- HC. eapply index_store_eq. apply store_in_range.
    rewrite len_replicate; lia.
  - exact HI.
  - rewrite (bind_step _ _ _ _ _ Hrun). rewrite HC. unfold bind at 1. simpl.
    rewrite (bind_step _ _ _ _ _ (load_int_step _ _ _ _ Hc')).
    exists c'. split; [reflexivity|exact HI'].
Qed.


Lemma index_Forall {A} (P : A -> Prop) (l : list A) :
  (forall i, 0 <= i < len l -> exists x, index l i = Some x /\ P x) ->
  Forall P l.
Proof.
  intros H. apply Forall_lookup_2. intros i x Hx.
  destruct (H (Z.of_nat i)) as (y & Hy & HP).
  - apply lookup_lt_Some in Hx. unfold len. lia.
  - unfold index in Hy. destruct (Z.ltb_spec (Z.of_nat i) 0); [lia|].
    rewrite Nat2Z.id in Hy. congruence.
Qed.


(** C1: whenever [Sign] returns a signature for a ring whose first member
    is on the signer's curve (the ring is on one fixed curve), [Verify]
    returns true on it: the chain of challenges recomputed from the
    emitted initial challenge closes.  A successful [Sign] already implies
    that the ring has at least two members and that [ring[s]] is the
    signer's public key. *)
Theorem Sign_then_Verify m ring privkey s w sig w' :
  Sign Sum256 m ring privkey s w = (Ok sig, w') ->
  curve_at w ring 0 = curve_at w ring s ->
  Verify Sum256 sig w' = (Ok true, w').
Proof.
  intros HSign Hcurve.
  apply Sign_Ok in HSign
    as (sk & C & Hn & Hs & Hrs & Hsk & Hh & HSz & HM & HR & _ & HlC & HlS & HC0
        & Hlk & _).
  destruct (Hlk 0) as (p0 & pk0 & c0 & sv0 & c1 & Hp0 & Hd0 & Hc0 & _); [lia|].
  assert (Hcv : ecdsa.Curve pk0 = ecdsa.Curve (ecdsa.EmbeddedPublicKey sk)).
  { unfold curve_at in Hcurve. rewrite Hp0, Hrs in Hcurve.
    rewrite <- (deref_same_heap _ _ _ Hh), Hd0 in Hcurve. simpl in Hcurve.
    rewrite Hsk in Hcurve. simpl in Hcurve. congruence. }
  rewrite Hc0 in HC0. injection HC0 as HC0. symmetry in HC0.
  destruct (Verify_inv
              (fun j c => exists cj, index C j = Some (Some cj) /\
                                     big.Bytes c = big.Bytes cj)
              sig w' p0 pk0 c0) as (c' & Hv & cj & Hcj & Hb); try congruence.
  - rewrite HSz. lia.
  - rewrite HSz, HR, HM, Hcv. intros i Hi.
    destruct (Hlk i Hi) as (p & pk & c & sv & cn & L1 & L2 & L3 & L4 & L5 & L6).
    exists p, pk, sv. repeat (split; [assumption|]).
    intros cv (cj & Hcj & Hb). rewrite L3 in Hcj. injection Hcj as <-.
    exists cn. split; [exact L5|]. rewrite Hb. symmetry. exact L6.
  - exists c0. auto.
  - rewrite Hv. rewrite Hc0 in Hcj. injection Hcj as <-.
    rewrite Hb, Equal_refl. reflexivity.
Qed.

(** *** The bounds of the random draws and the closing step *)

Lemma runs_in_Sign_loop curve m ring s n k : forall i C Ss,
  runs_in (asked_only (elliptic.P (elliptic.Params curve)))
    (Sign_loop Sum256 curve m ring s n k i C Ss).
Proof.
  induction k as [|k IH]; intros i C Ss; simpl.
  - apply runs_in_ret. apply asked_only_refl.
  - repeat runs_step; apply IH.
Qed.

(** Whatever the outcome of [Sign], the only bound it hands to [rand.Int]
    is the field prime P of the signer's curve. *)
Lemma Sign_asks_P m ring privkey s w sk r w' :
  privs w !! privkey = Some sk ->
  Sign Sum256 m ring privkey s w = (r, w') ->
  asked_only
    (elliptic.P (elliptic.Params (ecdsa.Curve (ecdsa.EmbeddedPublicKey sk))))
    w w'.
Proof.
  intros Hsk. unfold Sign.
  destruct (len ring <? 2); [intros [= <- <-]; apply asked_only_refl|].
  destruct ((s >=? len ring) || (s <? 0));
    [intros [= <- <-]; apply asked_only_refl|].
  assert (HP : Public privkey w = (Ok (PubOfPriv privkey), w)).
  { unfold Public, load_priv, bind. rewrite Hsk. reflexivity. }
  assert (HL : load_ptr (PubOfPriv privkey) w
               = (Ok (ecdsa.EmbeddedPublicKey sk), w)).
  { unfold load_ptr. simpl. rewrite Hsk. reflexivity. }
  rewrite (bind_step _ _ _ _ _ HP), (bind_step _ _ _ _ _ HL).
  set (b := elliptic.P _).
  match goal with |- ?c w = _ -> _ =>
    assert (HR : runs_in (asked_only b) c) end.
  { repeat runs_step.
    all: try apply runs_in_Sign_loop.
    all: repeat runs_step. }
  intros H. eapply HR. exact H.
Qed.

(** What the closing step computes: the signer's response of an emitted
    signature is u - r, where u was drawn below the field prime and r is
    C[s] * D reduced modulo the group order; the difference is not reduced
    again. *)
Lemma Sign_signer_response m ring privkey s w sig w' :
  Sign Sum256 m ring privkey s w = (Ok sig, w') ->
  exists sk u c_s r,
    privs w !! privkey = Some sk /\
    0 <= u < elliptic.P (elliptic.Params
                           (ecdsa.Curve (ecdsa.EmbeddedPublicKey sk))) /\
    big.Mod (c_s * ecdsa.D sk)
      (elliptic.N (elliptic.Params
                     (ecdsa.Curve (ecdsa.EmbeddedPublicKey sk)))) = Some r /\
    index (RingSign.S sig) s = Some (Some (u - r)).
Proof.
  intros H. apply Sign_Ok in H
    as (sk & C & _ & _ & _ & Hsk & _ & _ & _ & _ & _ & _ & _ & _ & _
        & u & c_s & r & Hu & _ & Hr & HS).
  exists sk, u, c_s, r. auto.
Qed.

(** *** The shape of a signature *)

(** C9: a signature emitted by [Sign] has as many responses as ring
    members, that number is its size, every response is populated, its
    message is the input message and its ring is the input ring. *)
Theorem Sign_signature_shape m ring privkey s w sig w' :
  Sign Sum256 m ring privkey s w = (Ok sig, w') ->
  len (RingSign.S sig) = RingSign.Size sig /\
  len (RingSign.Ring sig) = RingSign.Size sig /\
  Forall is_Some (RingSign.S sig) /\
  RingSign.M sig = m /\
  RingSign.Ring sig = ring.
Proof.
  intros H. apply Sign_Ok in H
    as (sk & C & Hn & Hs & _ & _ & _ & HSz & HM & HR & _ & _ & HlS & _ & Hlk & _).
  rewrite HSz, HR. repeat split; auto.
  apply index_Forall. intros i Hi. rewrite HlS in Hi.
  destruct (Hlk i Hi) as (_ & _ & _ & sv & _ & _ & _ & _ & L4 & _).
  exists (Some sv). split; [exact L4|eauto].
Qed.

Lemma Verify_loop_Curve curve sz msg c ss ring cv1 cv2 k :
  forall i C w,
    Verify_loop Sum256 curve
      {| RingSign.Size := sz; RingSign.M := msg; RingSign.C := c;
         RingSign.S := ss; RingSign.Ring := ring; RingSign.Curve := cv1 |}
      k i C w
    = Verify_loop Sum256 curve
      {| RingSign.Size := sz; RingSign.M := msg; RingSign.C := c;
         RingSign.S := ss; RingSign.Ring := ring; RingSign.Curve := cv2 |}
      k i C w.
Proof.
  induction k as [|k IH]; intros i C w; simpl; [reflexivity|].
  apply bind_ext; intros pk w1. apply bind_ext; intros c0 w2.
  destruct (elliptic.ScalarMult _ _ _ _) as [px py].
  apply bind_ext; intros s_i w3.
  destruct (elliptic.ScalarBaseMult _ _) as [sx sy].
  destruct (elliptic.Add _ _ _ _ _) as [tx ty].
  apply bind_ext; intros C1 w4. apply IH.
Qed.

(** C10: two signatures that agree on size, message, initial challenge,
    responses and ring get the same outcome from [Verify], whatever their
    curve descriptors are. *)
Theorem Verify_ignores_Curve a b w :
  agree_up_to_Curve a b -> Verify Sum256 a w = Verify Sum256 b w.
Proof.
  destruct a as [sz msg c ss ring cv1], b as [sz' msg' c' ss' ring' cv2].
  unfold agree_up_to_Curve. simpl. intros (<- & <- & <- & <- & <-).
  unfold Verify. simpl.
  apply bind_ext; intros C0 w1. apply bind_ext; intros C1 w2.
  apply bind_ext; intros pk0 w3.
  unfold bind at 1 3. rewrite (Verify_loop_Curve _ _ _ _ _ _ cv1 cv2).
  reflexivity.
Qed.

End Proofs.

(** ** The code on concrete inputs *)

(** The three-member scenario: message "hello", signer at index 1. *)
Lemma Sign_scenario3 :
  Sign toy.Sum256 toy.hello scenario.ring3 0%nat 1
    (scenario.heap3 [Some 20; Some 3; Some 4])
  = (Ok scenario.sig3, scenario.after3).
Proof. reflexivity. Qed.

(** Flipping one bit of the initial challenge makes [Verify] answer
    false. *)
Example Verify_tampered_challenge :
  Verify toy.Sum256 scenario.sig3_tampered scenario.after3
  = (Ok false, scenario.after3).
Proof. reflexivity. Qed.

(** C1 on the three-member scenario. *)
Lemma Sign_then_Verify_witness :
  Sign toy.Sum256 toy.hello scenario.ring3 0%nat 1
    (scenario.heap3 [Some 20; Some 3; Some 4])
  = (Ok scenario.sig3, scenario.after3) /\
  Verify toy.Sum256 scenario.sig3 scenario.after3 = (Ok true, scenario.after3).
Proof.
  split; [reflexivity|].
  apply (Sign_then_Verify toy.Sum256 toy.hello scenario.ring3 0%nat 1
           (scenario.heap3 [Some 20; Some 3; Some 4])).
  - reflexivity.
  - reflexivity.
Defined.

(** C9 on the three-member scenario. *)
Lemma Sign_signature_shape_witness :
  len (RingSign.S scenario.sig3) = RingSign.Size scenario.sig3 /\
  len (RingSign.Ring scenario.sig3) = RingSign.Size scenario.sig3 /\
  Forall is_Some (RingSign.S scenario.sig3) /\
  RingSign.M scenario.sig3 = toy.hello /\
  RingSign.Ring scenario.sig3 = scenario.ring3.
Proof.
  apply (Sign_signature_shape toy.Sum256 toy.hello scenario.ring3 0%nat 1
           (scenario.heap3 [Some 20; Some 3; Some 4])
           scenario.sig3 scenario.after3).
  reflexivity.
Defined.

(** C10 on the scenario's signature and its copy with a nil curve. *)
Lemma Verify_ignores_Curve_witness :
  Verify toy.Sum256 scenario.sig3 scenario.after3
  = Verify toy.Sum256 scenario.sig3_no_curve scenario.after3.
Proof.
  apply Verify_ignores_Curve. repeat split.
Defined.



(** C6 on a ring of one member, on an index one past the end, on an
    index that holds another member's key, and on the signer's index. *)
Lemma Sign_validation_order_witness :
  Sign toy.Sum256 toy.hello [PubOfPriv 0%nat] 0%nat 0 (scenario.heap3 [])
  = (Err ErrRingSize, scenario.heap3 []) /\
  Sign toy.Sum256 toy.hello scenario.ring3 0%nat 3 (scenario.heap3 [])
  = (Err ErrIndexRange, scenario.heap3 []) /\
  Sign toy.Sum256 toy.hello scenario.ring3 0%nat 0 (scenario.heap3 [])
  = (Err ErrNotSigner, scenario.heap3 []) /\
  ~ validation_error
      (fst (Sign toy.Sum256 toy.hello scenario.ring3 0%nat 1
              (scenario.heap3 []))).
Proof.
  assert (Hp : is_Some (privs (scenario.heap3 []) !! 0%nat))
    by (eexists; reflexivity).
  split; [|split; [|split]].
  - apply (Sign_validation_order toy.Sum256 toy.hello [PubOfPriv 0%nat]
             0%nat 0 (scenario.heap3 []) Hp).
    unfold len. simpl. lia.
  - apply (Sign_validation_order toy.Sum256 toy.hello scenario.ring3
             0%nat 3 (scenario.heap3 []) Hp);
      unfold len; simpl; lia.
  - apply (Sign_validation_order toy.Sum256 toy.hello scenario.ring3
             0%nat 0 (scenario.heap3 []) Hp);
      unfold len; simpl; try lia. discriminate.
  - apply (Sign_validation_order toy.Sum256 toy.hello scenario.ring3
             0%nat 1 (scenario.heap3 []) Hp);
      unfold len; simpl; try lia. reflexivity.
Defined.

(** C2: [Sign] compares the address stored at [ring[s]] with the address
    of the signer's own public key.  Here [ring[0]] points to a public key
    object of its own that has the curve and the coordinates of the
    signer's key: the two objects are equal by value, and [Sign] answers
    "secret index in ring is not signer". *)
Theorem Sign_rejects_copy_of_signer_key :
  deref (scenario.heap_copy [Some 39; Some 4]) (PubAt 0)
  = deref (scenario.heap_copy [Some 39; Some 4]) (PubOfPriv 0) /\
  Sign toy.Sum256 toy.hello scenario.ring_copy 0%nat 0
    (scenario.heap_copy [Some 39; Some 4])
  = (Err ErrNotSigner, scenario.heap_copy [Some 39; Some 4]).
Proof. split; reflexivity. Qed.

(** C3: on a curve with field prime P = 43 and group order N = 31 both
    calls of [rand.Int] made by [Sign] receive the bound 43, and the decoy
    response drawn, 40, lies outside [0, N). *)
Theorem Sign_draws_below_field_prime :
  elliptic.P (elliptic.Params toy.curve) = 43 /\
  elliptic.N (elliptic.Params toy.curve) = 31 /\
  Sign toy.Sum256 toy.hello scenario.ring2 0%nat 0
    (scenario.heap3 [Some 20; Some 40])
  = (Ok scenario.sig2_decoy40, scenario.after2) /\
  asked scenario.after2 = [43; 43] /\
  index (RingSign.S scenario.sig2_decoy40) 1 = Some (Some 40).
Proof. repeat split; reflexivity. Qed.

(** C4: the code computes u - ((C[s] * D) mod N); the difference itself is
    not reduced.  With u = 39 the signer's response comes out as
    32 = 39 - 7, which is not (u - C[s] * D) mod N = 1 and does not lie in
    [0, N) for N = 31.  With u = 5 the difference is negative and [Sign]
    gives up with "error closing ring". *)
Theorem Sign_signer_response_not_reduced :
  elliptic.N (elliptic.Params toy.curve) = 31 /\
  Sign toy.Sum256 toy.hello scenario.ring2 0%nat 0
    (scenario.heap3 [Some 39; Some 4])
  = (Ok scenario.sig2_u39, scenario.after2) /\
  RingSign.C scenario.sig2_u39 = Some 30369199955146839 /\
  index (RingSign.S scenario.sig2_u39) 0 = Some (Some 32) /\
  (30369199955146839 * ecdsa.D (toy.key 5)) mod 31 = 7 /\
  (39 - 30369199955146839 * ecdsa.D (toy.key 5)) mod 31 = 1 /\
  Sign toy.Sum256 toy.hello scenario.ring3 0%nat 1
    (scenario.heap3 [Some 5; Some 3; Some 4])
  = (Err ErrClosing, scenario.after3).
Proof. repeat split; reflexivity. Qed.

(** C7, as stated, fails: when the key generation fails, [GenNewKeyRing]
    returns normally with a nil ring; no error value comes out. *)
Lemma GenNewKeyRing_nil_not_error :
  GenNewKeyRing 2 0%nat 0 (scenario.keyworld [None])
  = (Ok None, scenario.keyworld []) /\
  fst (GenNewKeyRing 2 0%nat 0 (scenario.keyworld [None])) <> Err ErrRand.
Proof. split; [reflexivity|discriminate]. Qed.

(** C7, amended, on a source whose second key generation fails. *)
Lemma GenNewKeyRing_failure_witness :
  exists w', GenNewKeyRing 3 0%nat 1
               (scenario.keyworld [Some (toy.key 7); None]) = (Ok None, w').
Proof.
  apply GenNewKeyRing_failure.
  - lia.
  - eexists. reflexivity.
  - reflexivity.
Defined.

(** C8 on a ring of three with the signer at index 1. *)
Lemma GenNewKeyRing_builds_witness :
  exists ring w',
    GenNewKeyRing 3 0%nat 1
      (scenario.keyworld [Some (toy.key 7); Some (toy.key 11)])
    = (Ok (Some ring), w') /\
    len ring = 3 /\
    index ring 1 = Some (PubOfPriv 0%nat).
Proof.
  destruct (GenNewKeyRing_builds 3 0%nat 1
              (scenario.keyworld [Some (toy.key 7); Some (toy.key 11)])
              (toy.key 5))
    as (ring & w' & H1 & H2 & H3 & _); [lia|lia|reflexivity|reflexivity|].
  exists ring, w'. auto.
Defined.
